(** * VerticaPy: the lint workflow and the train/test split tutorial

    The repository slice holds two artefacts:

    - the GitHub Actions workflow [Pylint] (a YAML file), embedded below as
      data together with the part of the runner's behaviour the workflow
      relies on (event filtering, matrix expansion, the command lines of a
      [run] block);
    - the notebook on [train_test_split], whose SQL cells call the database
      function [SEEDED_RANDOM].

    Text and command lines are Stdlib strings, numbers are [Z] and [Q];
    sequences, permutations and the counting arguments use MathComp. *)

From Stdlib Require Import ZArith QArith String Ascii Lia.
From HB Require Import structures.
From mathcomp Require Import boot fingroup perm.

Set Implicit Arguments.
Unset Strict Implicit.
Unset Printing Implicit Defensive.

Local Close Scope Q_scope.

(** ** Strings

    Names, branch patterns and command lines are compared and searched, so
    characters and strings get their decidable equality. *)

HB.instance Definition _ := hasDecEq.Build ascii Ascii.eqb_spec.
HB.instance Definition _ := hasDecEq.Build string String.eqb_spec.

HB.instance Definition _ := hasDecEq.Build Z Z.eqb_spec.

(** Strict comparison of rationals as a test. *)
Definition Qlt_bool (x y : Q) : bool := ~~ Qle_bool y x.

Module Text.

Definition chars (s : string) : seq ascii := list_ascii_of_string s.
Definition text (cs : seq ascii) : string := string_of_list_ascii cs.

(** [starts_with p s]: [p] is a prefix of [s]. *)
Definition starts_with (p s : string) : bool := String.prefix p s.

(** [after p s] is what follows the prefix [p] of [s], when [s] starts
    with [p]. *)
Definition after (p s : string) : option string :=
  if starts_with p s
  then Some (text (drop (String.length p) (chars s)))
  else None.

(** [split_on sep s] cuts [s] at every occurrence of the character [sep]. *)
Fixpoint split_chars (sep : ascii) (cur : seq ascii) (cs : seq ascii)
  : seq string :=
  match cs with
  | [::] => [:: text (rev cur)]
  | c :: cs' =>
      if c == sep then text (rev cur) :: split_chars sep [::] cs'
      else split_chars sep (c :: cur) cs'
  end.

Definition split_on (sep : ascii) (s : string) : seq string :=
  split_chars sep [::] (chars s).

(** [replace pat by s] substitutes [by] for every occurrence of [pat] in
    [s], scanning left to right; [skip] counts the characters of a matched
    occurrence still to be dropped. *)
Fixpoint replace_from (pat by_ : string) (skip : nat) (s : string) : string :=
  match s with
  | EmptyString => EmptyString
  | String c s' =>
      if skip is k.+1 then replace_from pat by_ k s'
      else if (pat != EmptyString) && starts_with pat s
           then String.append by_
                  (replace_from pat by_ (String.length pat).-1 s')
           else String c (replace_from pat by_ 0 s')
  end.

Definition replace (pat by_ s : string) : string := replace_from pat by_ 0 s.

(** Decimal numerals, as in [--fail-under=10]. *)
Definition digit (c : ascii) : option nat :=
  let n := nat_of_ascii c in
  if (48 <= n) && (n <= 57) then Some (n - 48) else None.

Fixpoint decimal_from (acc : nat) (cs : seq ascii) : option nat :=
  match cs with
  | [::] => Some acc
  | c :: cs' =>
      if digit c is Some d then decimal_from (10 * acc + d) cs' else None
  end.

Definition decimal (s : string) : option nat :=
  if chars s is [::] then None else decimal_from 0 (chars s).

(** The words of a shell command line: blanks separate words except inside
    single quotes and inside a [$( ... )] substitution. *)
Definition flush (cur : seq ascii) : seq string :=
  if cur is [::] then [::] else [:: text (rev cur)].

Fixpoint words_from (depth : nat) (quoted : bool) (cur : seq ascii)
    (cs : seq ascii) : seq string :=
  match cs with
  | [::] => flush cur
  | c :: cs' =>
      if quoted then words_from depth (c != "'"%char) (c :: cur) cs'
      else if c == "'"%char then words_from depth true (c :: cur) cs'
      else if c == "("%char then words_from depth.+1 false (c :: cur) cs'
      else if c == ")"%char then words_from depth.-1 false (c :: cur) cs'
      else if (c == " "%char) && (depth == 0)
           then flush cur ++ words_from 0 false [::] cs'
      else words_from depth false (c :: cur) cs'
  end.

Definition words (line : string) : seq string :=
  words_from 0 false [::] (chars line).

End Text.

(** ** The workflow file *)

Module Workflow.

(** One entry of [steps]: an action ([uses], with its [with] inputs) or a
    shell script ([run], one string per line of the block). *)
Record step := Step {
  step_name : option string;
  step_uses : option string;
  step_with : seq (string * string);
  step_run : seq string
}.

Record job := Job {
  job_id : string;
  runs_on : string;
  matrix_python_version : seq string;
  steps : seq step
}.

(** The [on] section.  A [branches] filter that is absent lets every base
    branch through. *)
Inductive trigger :=
  | OnPullRequest (branches : option (seq string))
  | OnPush (branches : option (seq string)).

Record workflow := Workflow {
  name : string;
  on : seq trigger;
  jobs : seq job
}.

Local Open Scope string_scope.

Definition placeholder : string := "${{ matrix.python-version }}".

Definition checkout : step :=
  Step None (Some "actions/checkout@v3") [::] [::].

Definition setup_python : step :=
  Step (Some ("Set up Python " ++ placeholder))
       (Some "actions/setup-python@v3")
       [:: ("python-version", placeholder)]
       [::].

Definition install_dependencies : step :=
  Step (Some "Install dependencies") None [::]
       [:: "python -m pip install --upgrade pip";
           "pip install pylint";
           "pip install .";
           "pip install -r requirements-dev.txt";
           "pip install -r requirements-testing.txt";
           "pip install tensorflow"].

Definition analyse : step :=
  Step (Some "Analysing the code with pylint") None [::]
       [:: "pylint --fail-under=10 --disable=typecheck,W,C,R --extension-pkg-allow-list=scipy.special $(git ls-files '*.py')";
           "pylint --fail-under=9 --disable=typecheck,E,C,R $(git ls-files '*.py')"].

Definition build : job :=
  Job "build" "ubuntu-latest" [:: "3.9"; "3.10"; "3.11"]
      [:: checkout; setup_python; install_dependencies; analyse].

Definition pylint_workflow : workflow :=
  Workflow "Pylint" [:: OnPullRequest (Some [:: "master"])] [:: build].

(** *** Events

    The runner starts the workflow for an event when one of the triggers of
    [on] accepts it.  A pull request is filtered on its base branch (the
    branch it targets), a push on the branch pushed to.  The patterns of
    this workflow hold no glob character, so a pattern accepts exactly the
    branch of that name. *)
Inductive event :=
  | PullRequest (base : string)
  | Push (branch : string).

Definition glob_characters : seq ascii :=
  [:: "*"; "?"; "+"; "["; "]"; "!"]%char.

Definition literal (pattern : string) : bool :=
  all (fun c => c \notin glob_characters) (Text.chars pattern).

Definition passes (filter : option (seq string)) (branch : string) : bool :=
  if filter is Some patterns then branch \in patterns else true.

Definition fires (t : trigger) (e : event) : bool :=
  match t, e with
  | OnPullRequest f, PullRequest base => passes f base
  | OnPush f, Push b => passes f b
  | _, _ => false
  end.

Definition triggered (w : workflow) (e : event) : bool :=
  has (fun t => fires t e) (on w).

Definition pull_request_branches (w : workflow) : seq string :=
  flatten [seq (if t is OnPullRequest (Some bs) then bs else [::]) | t <- on w].

(** *** The matrix

    A job with a matrix runs once per listed value; in each run the
    placeholder stands for that value. *)
Record job_run := JobRun {
  run_of : string;
  python_version : string;
  run_steps : seq step
}.

Definition instantiate (v : string) (s : step) : step :=
  Step (omap (Text.replace placeholder v) (step_name s))
       (step_uses s)
       [seq (kv.1, Text.replace placeholder v kv.2) | kv <- step_with s]
       [seq Text.replace placeholder v l | l <- step_run s].

Definition job_runs (j : job) : seq job_run :=
  [seq JobRun (job_id j) v [seq instantiate v s | s <- steps j]
  | v <- matrix_python_version j].

Definition workflow_runs (w : workflow) : seq job_run :=
  flatten [seq job_runs j | j <- jobs w].

(** The interpreter a run installs: the [python-version] input handed to
    [actions/setup-python]. *)
Definition installed_python (r : job_run) : seq string :=
  flatten [seq [seq kv.2 | kv <- step_with s & kv.1 == "python-version"]
          | s <- run_steps r & step_uses s == Some "actions/setup-python@v3"].

End Workflow.

(** ** Pylint command lines

    What the workflow asks of pylint is read off the words of each command
    line.  Pylint itself is an external tool: of its behaviour only the
    meaning of the options the workflow passes is modelled, and the scoring
    expression (a configuration value not set by the workflow) stays a
    parameter. *)

Module Pylint.

Local Open Scope string_scope.

Record invocation := Invocation {
  fail_under : nat;
  disable : seq string;
  extension_pkg_allow_list : seq string;
  targets : seq string
}.

(** Without options pylint disables nothing and fails under a score of 10. *)
Definition defaults : invocation := Invocation 10 [::] [::] [::].

(** One argument of the command line.  The thresholds of the workflow are
    whole numbers; an argument that does not parse rejects the line. *)
Definition argument (w : string) (i : invocation) : option invocation :=
  if Text.after "--fail-under=" w is Some v then
    omap (fun n => Invocation n (disable i) (extension_pkg_allow_list i)
                     (targets i))
         (Text.decimal v)
  else if Text.after "--disable=" w is Some v then
    Some (Invocation (fail_under i) (disable i ++ Text.split_on "," v)
            (extension_pkg_allow_list i) (targets i))
  else if Text.after "--extension-pkg-allow-list=" w is Some v then
    Some (Invocation (fail_under i) (disable i)
            (extension_pkg_allow_list i ++ Text.split_on "," v) (targets i))
  else if Text.starts_with "-" w then None
  else Some (Invocation (fail_under i) (disable i)
               (extension_pkg_allow_list i) (rcons (targets i) w)).

Fixpoint arguments (ws : seq string) (i : invocation) : option invocation :=
  match ws with
  | [::] => Some i
  | w :: ws' => if argument w i is Some i' then arguments ws' i' else None
  end.

(** A command line is a pylint call when its first word is [pylint]. *)
Definition parse (line : string) : option invocation :=
  match Text.words line with
  | prog :: args => if prog == "pylint" then arguments args defaults else None
  | [::] => None
  end.

(** The pylint calls of one run of a job, in the order the steps run them. *)
Definition calls (r : Workflow.job_run) : seq invocation :=
  pmap parse (flatten [seq Workflow.step_run s | s <- Workflow.run_steps r]).

(** The shell word that expands to the tracked files matching [*.py]. *)
Definition python_files : string := "$(git ls-files '*.py')".

(** The calls of the step [Analysing the code with pylint], in order. *)
Definition analysis : seq invocation := pmap parse (Workflow.step_run Workflow.analyse).

Definition errors_call : invocation := nth defaults analysis 0.
Definition warnings_call : invocation := nth defaults analysis 1.

(** *** Messages and the verdict

    A message belongs to a category, named on the command line by its
    letter, and is raised by a checker.  [--disable] silences a message by
    category letter, by checker name or by its own symbol. *)
Inductive category := Fatal | Error | Warning | Convention | Refactor | Info.

Definition letter (c : category) : string :=
  match c with
  | Fatal => "F" | Error => "E" | Warning => "W"
  | Convention => "C" | Refactor => "R" | Info => "I"
  end.

Record message := Message {
  msg_category : category;
  msg_checker : string;
  msg_symbol : string
}.

Definition disabled (i : invocation) (m : message) : bool :=
  [|| letter (msg_category m) \in disable i,
      msg_checker m \in disable i | msg_symbol m \in disable i].

Definition reported (i : invocation) (ms : seq message) : seq message :=
  [seq m <- ms | ~~ disabled i m].

(** The figures the score is computed from. *)
Record stats := Stats {
  statement : nat;
  fatal : nat;
  error : nat;
  warning : nat;
  refactor : nat;
  convention : nat
}.

Definition is_category (c : category) (m : message) : bool :=
  letter (msg_category m) == letter c.

Definition tally (statements : nat) (ms : seq message) : stats :=
  Stats statements
        (count (is_category Fatal) ms) (count (is_category Error) ms)
        (count (is_category Warning) ms) (count (is_category Refactor) ms)
        (count (is_category Convention) ms).

Section Verdict.

(** The scoring expression in force (pylint's [evaluation] setting). *)
Variable evaluation : stats -> Q.

Definition score (i : invocation) (statements : nat) (found : seq message)
  : Q :=
  evaluation (tally statements (reported i found)).

Definition threshold (i : invocation) : Q :=
  inject_Z (Z.of_nat (fail_under i)).

(** [--fail-under]: the call exits with an error when the score is under
    the threshold. *)
Definition fails (i : invocation) (statements : nat) (found : seq message)
  : bool :=
  Qlt_bool (score i statements found) (threshold i).

(** A [run] block stops at the first command that fails: the step
    [Analysing the code with pylint] fails when one of its calls does. *)
Definition step_fails (statements : nat) (found : seq message) : bool :=
  has (fun i => fails i statements found) analysis.

End Verdict.

(** Pylint's stock scoring expression:
    [max(0, 0 if fatal else 10.0 - ((float(5 * error + warning + refactor +
    convention) / statement) * 10))]. *)
Definition weight (st : stats) : nat :=
  5 * error st + warning st + refactor st + convention st.

Definition stock_evaluation (st : stats) : Q :=
  if 0 < fatal st then 0%Q
  else
    let raw :=
      (10 - (inject_Z (Z.of_nat (weight st))
             / inject_Z (Z.of_nat (statement st))) * 10)%Q in
    if Qle_bool 0 raw then raw else 0%Q.

(** The command lines a run of a job executes, step after step. *)
Definition command_lines (r : Workflow.job_run) : seq string :=
  flatten [seq Workflow.step_run s | s <- Workflow.run_steps r].

(** [pip install pkg], the line that installs the package [pkg]. *)
Definition installs (pkg : string) (line : string) : bool :=
  Text.words line == [:: "pip"; "install"; pkg].

End Pylint.

(** ** The database side of the notebook

    The SQL cells of the notebook call [SEEDED_RANDOM]; the Python cells
    call [train_test_split], with and without [order_by]. *)

Module Engine.

(** Modelled from the spec: [SEEDED_RANDOM], a built-in of the database
    server, whose code is not in the repository.  The notebook and the spec
    say of it that it yields "a seeded pseudo-random value per row", "a
    number in the interval [0,1)", the same for the same seed, and that it
    "depends on the order of your data".  It is modelled as a generator
    started from the seed once per statement and advanced once per row the
    statement reads; the value for a row is the generator's state reduced
    to the modulus, as a fraction of the modulus. *)
Record generator := Generator {
  modulus : positive;
  seeding : Z -> Z;
  advance : Z -> Z
}.

Definition state (g : generator) (seed : Z) (row : nat) : Z :=
  iter row.+1 (advance g) (seeding g seed).

Definition SEEDED_RANDOM (g : generator) (seed : Z) (row : nat) : Q :=
  Qmake (state g seed row mod Zpos (modulus g)) (modulus g).

(** A generator to compute examples with: the 48-bit linear congruential
    generator of the C library. *)
Definition lcg48 : generator :=
  Generator (2 ^ 48)%positive
            (fun seed => (seed mod 2 ^ 32) * 2 ^ 16 + 13070)%Z
            (fun x => (25214903917 * x + 11) mod 2 ^ 48)%Z.

(** *** Statements

    [SELECT SEEDED_RANDOM(seed)] over a result of [rows] rows is the column
    of the values drawn for the rows, in the order they are read; without a
    [FROM] clause, as in the notebook, the result has one row.  A session
    keeps the statements it has run. *)
Inductive query :=
  | SelectSeededRandom (seed : Z)
  | SelectSeededRandomFrom (seed : Z) (rows : nat).





Definition cell_seed_1 : query := SelectSeededRandom 1.

(** *** Splitting

    [order_by] names a column and a direction, as in the notebook's
    [{fare: asc}]. *)
Inductive direction := Asc | Desc.

Definition ordering := (string * direction)%type.

Definition by_fare : ordering := ("fare"%string, Asc).

Definition before (d : direction) (x y : Z) : bool :=
  if d is Asc then (x <=? y)%Z else (y <=? x)%Z.

Section Split.

Variable g : generator.

(** Rows of any kind, with the value each holds in a column. *)
Variable row : eqType.
Variable cell : string -> row -> Z.

Definition in_order (o : ordering) (r1 r2 : row) : bool :=
  before o.2 (cell o.1 r1) (cell o.1 r2).

(** A relation has no order of its own: a statement may read the rows of
    [t] in any order [s]; under [order_by] the rows are read sorted on the
    column, rows of equal value in any order. *)
Definition delivers (order_by : option ordering) (t s : seq row) : bool :=
  perm_eq s t && (if order_by is Some o then sorted (in_order o) s else true).

(** The rows a statement keeps: the row read at position [i] is kept when
    the value drawn for it passes [keep]. *)
Definition selected (keep : Q -> bool) (seed : Z) (s : seq row) : seq row :=
  mask [seq keep (SEEDED_RANDOM g seed i) | i <- iota 0 (size s)] s.

Definition test_rows (test_size : Q) (seed : Z) (s : seq row) : seq row :=
  selected (fun x => Qlt_bool x test_size) seed s.

Definition train_rows (test_size : Q) (seed : Z) (s : seq row) : seq row :=
  selected (fun x => Qle_bool test_size x) seed s.

(** Modelled from the spec: [train_test_split], a method of the library's
    dataframe, whose code is not in the repository.  It is "splitting a
    table into train/test partitions using a seeded pseudo-random value per
    row, optionally after sorting by a user-specified column"; the notebook
    adds that the seed is shared "between the training and testing sets".
    The two sets are two relations over the same table, each reading the
    rows in an order of its own ([s_train], [s_test]) and keeping the rows
    whose value is, for the test set, under [test_size] and, for the
    training set, not under it. *)
Definition train_test_split (test_size : Q) (seed : Z)
    (s_train s_test : seq row) : seq row * seq row :=
  (train_rows test_size seed s_train, test_rows test_size seed s_test).

(** The results a call can have on the table [t]. *)
Definition splits (t : seq row) (order_by : option ordering)
    (test_size : Q) (seed : Z) (out : seq row * seq row) : Prop :=
  exists s_train s_test,
    [/\ delivers order_by t s_train, delivers order_by t s_test
      & out = train_test_split test_size seed s_train s_test].

(** Every row of [t] is in exactly one of [train] and [test], as many
    times as it is in [t]. *)
Definition partitions (t train test : seq row) : bool :=
  perm_eq (train ++ test) t.

End Split.

(** *** Counting the orders

    The rows of a stored table [t] are named by their position in it; an
    order in which they can be read is a permutation of the positions. *)
Section Orders.

Variable g : generator.
Variable row : eqType.
Variable cell : string -> row -> Z.
Variable n : nat.
Variable t : n.-tuple row.

Definition cell_at (c : string) (i : 'I_n) : Z := cell c (tnth t i).

Definition stored : seq 'I_n := enum 'I_n.

Definition delivery (p : 'S_n) : seq 'I_n := [seq p i | i <- enum 'I_n].

Definition ordered (o : ordering) (p : 'S_n) : bool :=
  sorted (in_order cell_at o) (delivery p).

(** A pair of orders, one per relation, collides when some row ends up in
    both sets or in neither. *)
Definition collides (test_size : Q) (seed : Z) (pq : 'S_n * 'S_n) : bool :=
  ~~ partitions stored (train_rows g test_size seed (delivery pq.1))
                       (test_rows g test_size seed (delivery pq.2)).

(** The side a row read at position [i] falls on: [true] for the test
    set, [false] for the training set. *)
Definition test_side (test_size : Q) (seed : Z) (i : nat) : bool :=
  Qlt_bool (SEEDED_RANDOM g seed i) test_size.

(** The permutations of the positions that leave a labelling [f] of the
    positions unchanged. *)
Definition keeping (T : eqType) (f : 'I_n -> T) : {set 'S_n} :=
  [set p : 'S_n | [forall i, f (p i) == f i]].

End Orders.

(** *** A few passengers, for the examples

    A row of the dataset, cut down to a row number and the three columns
    the notebook names: age, fare and survived. *)
Definition passenger := (nat * Z * Z * Z)%type.

Definition passenger_cell (c : string) (p : passenger) : Z :=
  let: (_, age, fare, survived) := p in
  if c == "age"%string then age
  else if c == "fare"%string then fare
  else if c == "survived"%string then survived
  else 0%Z.

End Engine.

(** * Properties *)

Import Workflow Pylint.

Lemma Qlt_boolP (x y : Q) : reflect (x < y)%Q (Qlt_bool x y).
Proof.
rewrite /Qlt_bool; apply: (iffP idP) => [/negP h|h].
  by apply: Qnot_le_lt => /Qle_bool_iff.
by apply/negP => /Qle_bool_iff /Qle_not_lt.
Qed.

(** ** The workflow *)

Section WorkflowFacts.

Local Open Scope string_scope.

Lemma master_is_literal : all literal (pull_request_branches pylint_workflow).
Proof. by []. Qed.

(** C3: the workflow has one trigger, [pull_request], filtered on the
    branch [master], the repository's main line: an event starts the
    workflow exactly when it is a pull request whose base branch is
    [master]. *)
Theorem pull_request_to_master_triggers :
  [/\ on pylint_workflow = [:: OnPullRequest (Some [:: "master"])],
      pull_request_branches pylint_workflow = [:: "master"]
    & forall e, triggered pylint_workflow e <-> e = PullRequest "master"].
Proof.
split=> // e; case: e => b; rewrite /triggered /= ?orbF ?inE; split=> //.
- by move/eqP->.
- by case=> ->.
Qed.

(** C6: the matrix of the job [build] lists three distinct interpreter
    versions, the workflow runs the job once per version, and each run
    installs the version it stands for. *)
Theorem matrix_runs_three_versions :
  let runs := workflow_runs pylint_workflow in
  [/\ size (matrix_python_version build) = 3,
      [seq python_version r | r <- runs] = [:: "3.9"; "3.10"; "3.11"],
      uniq [seq python_version r | r <- runs]
    & [seq installed_python r | r <- runs]
      = [seq [:: python_version r] | r <- runs]].
Proof. by split; vm_compute. Qed.

(** C5: every run of the job calls pylint exactly twice, both times over
    the tracked Python files; the two calls differ in the score they fail
    under and in the categories they disable. *)
Theorem pylint_runs_twice :
  [/\ [seq calls r | r <- workflow_runs pylint_workflow]
      = nseq 3 [:: errors_call; warnings_call],
      targets errors_call = [:: python_files]
      /\ targets warnings_call = [:: python_files],
      fail_under errors_call = 10 /\ fail_under warnings_call = 9,
      fail_under errors_call <> fail_under warnings_call
    & ("W" \in disable errors_call) && ("W" \notin disable warnings_call)
      && ("E" \in disable warnings_call) && ("E" \notin disable errors_call)].
Proof. by split; vm_compute. Qed.

End WorkflowFacts.

(** ** The verdicts of the two pylint calls *)

Section Reports.

Variable i : invocation.

Lemma reported_disabled (m : message) (found : seq message) :
  disabled i m -> reported i (m :: found) = reported i found.
Proof. by rewrite /reported /= => ->. Qed.

Lemma reported_cat (found more : seq message) :
  reported i (found ++ more) = reported i found ++ reported i more.
Proof. exact: filter_cat. Qed.

Lemma disabled_letter (m : message) :
  letter (msg_category m) \in disable i -> disabled i m.
Proof. by rewrite /disabled => ->. Qed.

Lemma reported_category (c : category) (found : seq message) :
  letter c \in disable i -> count (is_category c) (reported i found) = 0.
Proof.
move=> hc; elim: found => //= m found IH.
case hm: (disabled i m) => //=; rewrite IH addn0.
apply/eqP; rewrite eqb0; apply: contraFN hm => /eqP hl.
by rewrite disabled_letter ?hl.
Qed.

End Reports.

Section Verdicts.

Local Open Scope string_scope.

Variable evaluation : stats -> Q.

Hypothesis evaluation_top : forall st, (evaluation st <= 10)%Q.
Hypothesis evaluation_error :
  forall st, 0 < statement st -> 0 < error st -> (evaluation st < 10)%Q.

Let failing := fails evaluation.
Let scored := score evaluation.

Lemma fails_under (i : invocation) n found :
  failing i n found <-> (scored i n found < threshold i)%Q.
Proof. by split=> /Qlt_boolP. Qed.

(** C10: the first call disables typecheck, W, C and R and fails under 10:
    it fails unless the score is exactly 10, and an error message it still
    reports makes it fail; warnings do not reach it.  The second call
    disables typecheck, E, C and R and fails under 9: it fails exactly when
    the score of what it reports is below 9, so it passes from 9 to 10;
    errors do not reach it. *)
Theorem complementary_verdicts :
  [/\ disable errors_call = [:: "typecheck"; "W"; "C"; "R"]
      /\ fail_under errors_call = 10,
      disable warnings_call = [:: "typecheck"; "E"; "C"; "R"]
      /\ fail_under warnings_call = 9,
      forall n found,
        (failing errors_call n found
           <-> ~ (scored errors_call n found == 10)%Q)
        /\ (0 < n -> has (is_category Error) (reported errors_call found) ->
            failing errors_call n found),
      forall n found,
        (failing warnings_call n found
           <-> (scored warnings_call n found < 9)%Q)
        /\ ((9 <= scored warnings_call n found)%Q ->
            ~~ failing warnings_call n found)
    & forall n found m,
        (msg_category m = Warning ->
         failing errors_call n (m :: found) = failing errors_call n found)
        /\ (msg_category m = Error ->
            failing warnings_call n (m :: found)
            = failing warnings_call n found)].
Proof.
split.
- by split; vm_compute.
- by split; vm_compute.
- move=> n found; split.
    rewrite fails_under; split=> [h e|h].
      by move: h; rewrite e; apply: Qlt_irrefl.
    have /Qle_lteq [//|e] := @evaluation_top (tally n (reported errors_call found)).
    by case: h.
  move=> n0; rewrite has_count => he; apply/fails_under.
  exact: (@evaluation_error (tally n _)).
- move=> n found; split; first exact: fails_under.
  by move=> h; apply/negP => /fails_under /Qlt_not_le.
- move=> n found m; split=> hm; rewrite /failing /fails /score.
    by rewrite reported_disabled // disabled_letter // hm.
  by rewrite reported_disabled // disabled_letter // hm.
Qed.

End Verdicts.

Lemma stock_top st : (stock_evaluation st <= 10)%Q.
Proof.
rewrite /stock_evaluation; case: (0 < fatal st) => //.
case: Qle_bool => //.
set w := inject_Z _; set s := inject_Z _.
have hw : (0 <= w)%Q by rewrite /w -(Zle_Qle 0); lia.
have hs : (0 <= s)%Q by rewrite /s -(Zle_Qle 0); lia.
have hq : (0 <= w / s)%Q.
  by apply: Qmult_le_0_compat => //; apply: Qinv_le_0_compat.
have: (0 <= w / s * 10)%Q by apply: Qmult_le_0_compat.
case: (w / s * 10)%Q => a d.
by rewrite /Qle /Qminus /Qplus /Qopp; cbn [Qnum Qden]; lia.
Qed.

Lemma stock_error st :
  0 < statement st -> 0 < error st -> (stock_evaluation st < 10)%Q.
Proof.
move=> /ltP hs /ltP he; rewrite /stock_evaluation; case: (0 < fatal st) => //.
case: Qle_bool => //.
set w := inject_Z _; set s := inject_Z _.
have hw : (0 < w)%Q.
  by rewrite /w -(Zlt_Qlt 0) /weight -!plusE -multE; lia.
have hs' : (0 < s)%Q by rewrite /s -(Zlt_Qlt 0); lia.
have hq : (0 < w / s)%Q.
  by apply: Qlt_shift_div_l => //; rewrite Qmult_0_l.
have: (0 < w / s * 10)%Q by rewrite -(Qmult_0_l 10); apply/Qmult_lt_r.
case: (w / s * 10)%Q => a d.
by rewrite /Qlt /Qminus /Qplus /Qopp; cbn [Qnum Qden]; lia.
Qed.

(** With pylint's stock scoring both assumptions on the score hold, and the
    verdicts follow for it. *)
Lemma complementary_verdicts_stock :
  [/\ forall st, (stock_evaluation st <= 10)%Q,
      forall n found,
        0 < n -> has (is_category Error) (reported errors_call found) ->
        fails stock_evaluation errors_call n found
    & forall n found,
        fails stock_evaluation warnings_call n found
        <-> (score stock_evaluation warnings_call n found < 9)%Q].
Proof.
have [_ _ h1 h2 _] := complementary_verdicts stock_top stock_error.
split; first exact: stock_top.
- by move=> n found; case: (h1 n found).
- by move=> n found; case: (h2 n found).
Defined.

(** Under the stock scoring: one warning in ten statements leaves the
    second call at 9 and passing, a second warning fails it; a single
    error outside typecheck fails the first call, which a warning alone
    does not. *)
Lemma stock_slack :
  let w := Message Warning "variables" "unused-variable" in
  let e := Message Error "variables" "undefined-variable" in
  [/\ fails stock_evaluation warnings_call 10 [:: w] = false,
      fails stock_evaluation warnings_call 10 [:: w; w] = true,
      fails stock_evaluation errors_call 10 [:: e] = true
    & fails stock_evaluation errors_call 10 [:: w; w] = false].
Proof. by split; vm_compute. Qed.

(** ** The seeded generator *)

Import Engine.

(** C9: whatever the seed and the row, the value of [SEEDED_RANDOM] is at
    least 0 and strictly below 1. *)
Theorem seeded_random_unit_interval (g : generator) (seed : Z) (row : nat) :
  (0 <= SEEDED_RANDOM g seed row)%Q /\ (SEEDED_RANDOM g seed row < 1)%Q.
Proof.
have := Z.mod_pos_bound (state g seed row) (Zpos (modulus g)) (Pos2Z.is_pos _).
by rewrite /SEEDED_RANDOM /Qle /Qlt; cbn [Qnum Qden]; lia.
Qed.



(** ** Splitting *)

Section MaskFacts.

Variable T : eqType.

Lemma perm_mask_negb (m : seq bool) (s : seq T) :
  size m = size s -> perm_eq (mask m s ++ mask [seq ~~ b | b <- m] s) s.
Proof.
elim: m s => [|b m IH] [|x s] //= [hs]; case: b => /=.
  by rewrite perm_cons IH.
by rewrite -[x :: mask _ s]cat1s perm_catCA /= perm_cons IH.
Qed.

Lemma eq_map_inj_in (T2 : eqType) (f : T -> T2) (A s1 s2 : seq T) :
  {in A &, injective f} -> {subset s1 <= A} -> {subset s2 <= A} ->
  [seq f x | x <- s1] = [seq f x | x <- s2] -> s1 = s2.
Proof.
move=> inj; elim: s1 s2 => [|x s1 IH] [|y s2] //= h1 h2 [exy es].
have hx : x \in A by apply: h1; rewrite mem_head.
have hy : y \in A by apply: h2; rewrite mem_head.
rewrite (inj x y hx hy exy) (IH s2) // => z hz.
  by apply: h1; rewrite inE hz orbT.
by apply: h2; rewrite inE hz orbT.
Qed.

End MaskFacts.

Lemma before_trans (d : direction) : transitive (before d).
Proof. by case: d => y x z /Z.leb_le h1 /Z.leb_le h2; apply/Z.leb_le; lia. Qed.

Lemma before_anti (d : direction) : antisymmetric (before d).
Proof. by case: d => x y /andP [/Z.leb_le h1 /Z.leb_le h2]; lia. Qed.


Section SplitFacts.

Variable g : generator.
Variable row : eqType.
Variable cell : string -> row -> Z.

Implicit Types (t s : seq row) (o : ordering).

Lemma test_rows_mask test_size seed s :
  test_rows g test_size seed s
  = mask [seq ~~ b | b <- [seq Qle_bool test_size (SEEDED_RANDOM g seed i)
                          | i <- iota 0 (size s)]] s.
Proof. by rewrite /test_rows /selected -map_comp. Qed.

Lemma same_order_partitions test_size seed s :
  partitions s (train_rows g test_size seed s) (test_rows g test_size seed s).
Proof.
by rewrite /partitions test_rows_mask perm_mask_negb // size_map size_iota.
Qed.

(** Under [order_by], the values of the column come in one order only. *)
Lemma ordered_keys o t s1 s2 :
  delivers cell (Some o) t s1 -> delivers cell (Some o) t s2 ->
  [seq cell o.1 r | r <- s1] = [seq cell o.1 r | r <- s2].
Proof.
move=> /andP [p1 o1] /andP [p2 o2].
apply: (sorted_eq (@before_trans o.2) (@before_anti o.2)).
- by rewrite sorted_map.
- by rewrite sorted_map.
by apply: perm_map; rewrite (perm_trans p1) // perm_sym.
Qed.

Lemma ordered_unique o t s1 s2 :
  uniq [seq cell o.1 r | r <- t] ->
  delivers cell (Some o) t s1 -> delivers cell (Some o) t s2 -> s1 = s2.
Proof.
move=> /uniq_map_inj_in inj d1 d2.
have [/andP [p1 _] /andP [p2 _]] := (d1, d2).
apply: (eq_map_inj_in inj) (ordered_keys d1 d2) => r.
  by rewrite (perm_mem p1).
by rewrite (perm_mem p2).
Qed.

(** C1, as the code allows it: when the training and the testing relation
    read the rows of the table in the same order, every row of the table
    lands in exactly one of the two sets. *)
Theorem split_partitions_same_order t s order_by test_size seed :
  delivers cell order_by t s ->
  partitions t (train_test_split g test_size seed s s).1
               (train_test_split g test_size seed s s).2.
Proof.
case/andP=> p _; rewrite /train_test_split /partitions /=.
exact: perm_trans (same_order_partitions _ _ _) p.
Qed.

(** C4, as the code allows it: when the values of the [order_by] column
    are pairwise distinct in the table, all runs of the split with the same
    seed return the same training and testing sets. *)
Theorem order_by_unique_deterministic t o test_size seed out1 out2 :
  uniq [seq cell o.1 r | r <- t] ->
  splits g cell t (Some o) test_size seed out1 ->
  splits g cell t (Some o) test_size seed out2 ->
  out1 = out2.
Proof.
move=> u [a1 [b1 [da1 db1 ->]]] [a2 [b2 [da2 db2 ->]]].
by rewrite (ordered_unique u da1 da2) (ordered_unique u db1 db2).
Qed.

End SplitFacts.

Section Examples.

Let anna : passenger := (1%N, 29%Z, 211%Z, 1%Z).
Let boris : passenger := (2%N, 2%Z, 151%Z, 1%Z).
Let carl : passenger := (3%N, 30%Z, 151%Z, 0%Z).

(** A table read in two orders: the second row of the table is put in both
    sets and the first in neither, so not every outcome of the split is a
    partition. *)
Lemma split_can_collide :
  exists out,
    splits lcg48 passenger_cell [:: anna; boris] None (1 # 2) 0 out
    /\ ~~ partitions [:: anna; boris] out.1 out.2.
Proof.
exists ([:: boris], [:: boris]); split=> //.
by exists [:: anna; boris], [:: boris; anna]; split; vm_compute.
Qed.

(** The same table read in one order by both relations. *)
Lemma split_partitions_same_order_example :
  partitions [:: anna; boris]
    (train_test_split lcg48 (1 # 2) 0 [:: boris; anna] [:: boris; anna]).1
    (train_test_split lcg48 (1 # 2) 0 [:: boris; anna] [:: boris; anna]).2.
Proof.
apply: (@split_partitions_same_order lcg48 _ passenger_cell _ _ None).
by vm_compute.
Defined.

(** Two passengers paid the same fare: sorted on the fare they can be read
    in either order, and the two runs select different rows. *)
Lemma order_by_ties_differ :
  exists out1 out2,
    [/\ splits lcg48 passenger_cell [:: boris; carl] (Some by_fare) (1 # 2) 0 out1,
        splits lcg48 passenger_cell [:: boris; carl] (Some by_fare) (1 # 2) 0 out2
      & ~~ perm_eq out1.1 out2.1 /\ ~~ perm_eq out1.2 out2.2].
Proof.
exists ([:: carl], [:: boris]), ([:: boris], [:: carl]); split=> //.
- by exists [:: boris; carl], [:: boris; carl]; split; vm_compute.
- by exists [:: carl; boris], [:: carl; boris]; split; vm_compute.
Qed.

(** With distinct fares every run returns the same two sets. *)
Lemma order_by_unique_deterministic_example :
  let t := [:: anna; boris] in
  let s := [:: boris; anna] in
  [/\ uniq [seq passenger_cell by_fare.1 r | r <- t],
      splits lcg48 passenger_cell t (Some by_fare) (1 # 2) 0
        (train_test_split lcg48 (1 # 2) 0 s s)
    & forall out, splits lcg48 passenger_cell t (Some by_fare) (1 # 2) 0 out ->
                  out = ([:: anna], [:: boris])].
Proof.
have h : splits lcg48 passenger_cell [:: anna; boris] (Some by_fare) (1 # 2) 0
           (train_test_split lcg48 (1 # 2) 0 [:: boris; anna] [:: boris; anna]).
  by exists [:: boris; anna], [:: boris; anna]; split; vm_compute.
have u : uniq [seq passenger_cell by_fare.1 r | r <- [:: anna; boris]].
  by vm_compute.
split=> // out hout.
by rewrite (order_by_unique_deterministic u hout h); vm_compute.
Defined.

End Examples.

(** ** Counting the orders that collide *)

Section OrderCounting.

Variable g : generator.
Variable row : eqType.
Variable cell : string -> row -> Z.
Variable n : nat.
Variable t : n.-tuple row.
Variable test_size : Q.
Variable seed : Z.

Implicit Types (p q : 'S_n) (r i : 'I_n).

(** The side of the row read at position [i]: [true] for the test set. *)
Let side (i : 'I_n) : bool := Qlt_bool (SEEDED_RANDOM g seed i) test_size.

Lemma selected_delivery (keep : Q -> bool) p :
  selected g keep seed (delivery p)
  = [seq p i | i <- enum 'I_n & keep (SEEDED_RANDOM g seed i)].
Proof.
rewrite /selected /delivery size_map size_enum_ord -val_enum_ord -map_comp.
by rewrite -map_mask -filter_mask.
Qed.

Lemma mem_selected_delivery (keep : Q -> bool) p r :
  (r \in selected g keep seed (delivery p))
  = keep (SEEDED_RANDOM g seed (p^-1 r)%g).
Proof.
rewrite selected_delivery -{1}(permKV p r) (mem_map (@perm_inj _ p)).
by rewrite mem_filter mem_enum andbT.
Qed.

Lemma uniq_selected_delivery (keep : Q -> bool) p :
  uniq (selected g keep seed (delivery p)).
Proof.
rewrite selected_delivery (map_inj_uniq (@perm_inj _ p)).
exact/filter_uniq/enum_uniq.
Qed.

Lemma mem_train_delivery p r :
  (r \in train_rows g test_size seed (delivery p)) = ~~ side (p^-1 r)%g.
Proof. by rewrite mem_selected_delivery /side /Qlt_bool negbK. Qed.

Lemma mem_test_delivery p r :
  (r \in test_rows g test_size seed (delivery p)) = side (p^-1 r)%g.
Proof. by rewrite mem_selected_delivery. Qed.

(** A pair of orders collides unless every row falls on the same side in
    both of them. *)
Lemma collidesE (pq : 'S_n * 'S_n) :
  collides g test_size seed pq
  = ~~ [forall r, side (pq.1^-1 r)%g == side (pq.2^-1 r)%g].
Proof.
rewrite /collides /partitions /stored; congr (~~ _).
apply/idP/forallP => [h r|h].
  have := perm_uniq h; rewrite enum_uniq cat_uniq => /and3P [_ /hasPn hn _].
  have := perm_mem h r; rewrite mem_enum mem_cat mem_train_delivery.
  rewrite mem_test_delivery; case e1: (side _) => /=.
    by move=> ->.
  move=> _; apply/eqP/esym/negbTE.
  rewrite -mem_test_delivery; apply/negP => /hn /=.
  by rewrite mem_train_delivery e1.
apply: uniq_perm; rewrite ?enum_uniq //.
  rewrite cat_uniq !uniq_selected_delivery andbT /=.
  apply/hasPn => r; rewrite mem_test_delivery /= mem_train_delivery negbK.
  by rewrite (eqP (h r)).
move=> r; rewrite mem_enum mem_cat mem_train_delivery mem_test_delivery.
by rewrite (eqP (h r)) orNb.
Qed.

Lemma keepingP (T : eqType) (f : 'I_n -> T) p :
  reflect (forall i, f (p i) = f i) (p \in keeping f).
Proof. by rewrite inE; apply: (iffP forallP) => h i; apply/eqP. Qed.




Variable o : ordering.

Let key (r : 'I_n) : Z := cell_at cell t o.1 r.

Lemma perm_delivery p : perm_eq (delivery p) (stored n).
Proof.
rewrite /delivery /stored; apply: uniq_perm.
- by rewrite (map_inj_uniq (@perm_inj _ p)) enum_uniq.
- exact: enum_uniq.
move=> r; rewrite mem_enum. 
rewrite  -(permKV p r).
rewrite (mem_map (@perm_inj _ p)) mem_enum.
by [].
Qed.

Lemma ordered_keys_delivery p :
  ordered cell t o p = sorted (before o.2) [seq key (p i) | i <- enum 'I_n].
Proof. by rewrite /ordered /delivery -sorted_map -map_comp. Qed.

Lemma ordered_rcoset p q :
  ordered cell t o p ->
  ordered cell t o q = (q \in keeping (fun i => key (p i)) :* p)%g.
Proof.
rewrite !ordered_keys_delivery.
rewrite mem_rcoset => op.
apply/idP/keepingP => [oq i|h].
  have e : [seq key (q i) | i <- enum 'I_n] = [seq key (p i) | i <- enum 'I_n].
    apply: (sorted_eq (@before_trans o.2) (@before_anti o.2)).
    - exact: oq.
    - exact: op.
    rewrite (map_comp key q) (map_comp key p).
    apply: perm_map.
    apply: perm_trans (perm_delivery q) _.
    by rewrite perm_sym; exact: perm_delivery.
  rewrite permM permKV.
  move/eq_in_map: e; apply.
  by rewrite mem_enum.
suff -> : [seq key (q i) | i <- enum 'I_n] = [seq key (p i) | i <- enum 'I_n].
  exact: op.
by apply/eq_in_map => i _; rewrite -(h i) permM permKV.
Qed.










End OrderCounting.


(** ** More on the split *)

Section SplitShapes.

Variable g : generator.
Variable row : eqType.
Variable cell : string -> row -> Z.

Implicit Types (t s : seq row) (o : ordering).





(** X3: sorted on a column of distinct values, the table is read in one order
    only, so every outcome of the split is a partition of the table. *)
Theorem order_by_unique_partitions t o test_size seed out :
  uniq [seq cell o.1 r | r <- t] ->
  splits g cell t (Some o) test_size seed out ->
  partitions t out.1 out.2.
Proof.
move=> u [s1 [s2 [d1 d2 ->]]]; rewrite -(ordered_unique u d1 d2) /=.
case/andP: d1 => p _; rewrite /partitions.
exact: perm_trans (same_order_partitions _ _ _ _) p.
Qed.

End SplitShapes.

Section Swaps.

Variable g : generator.
Variable row : eqType.
Variable cell : string -> row -> Z.
Variable n : nat.
Variable t : n.-tuple row.
Variable test_size : Q.
Variable seed : Z.

Implicit Types (p q : 'S_n) (r i j : 'I_n).

Let side (i : 'I_n) : bool := test_side g test_size seed i.

(** X4: the selection depends on the order of the data: when the draws for
    two positions fall on different sides, reading the table with the rows
    of these two positions exchanged collides with the first reading. *)
Theorem swap_collides p i j :
  side i != side j -> collides g test_size seed (p, (tperm i j * p)%g).
Proof.
move=> hij; rewrite collidesE /=; apply/forallPn; exists (p i).
by rewrite permK invMg permM permK tpermV tpermL.
Qed.

Variable o : ordering.

Let key (r : 'I_n) : Z := cell_at cell t o.1 r.


(** X5: sorting leaves ties open: exchanging two rows of equal value in a sorted
    reading gives another sorted reading, and the two collide when the draws
    for the two positions fall on different sides. *)
Theorem order_by_ties_collide p i j :
  ordered cell t o p -> key (p i) = key (p j) -> side i != side j ->
  [&& ordered cell t o p, ordered cell t o (tperm i j * p)%g
    & collides g test_size seed (p, (tperm i j * p)%g)].
Proof.
move=> op kij hij; rewrite op swap_collides // andbT /=.
rewrite (ordered_rcoset _ op) mem_rcoset mulgK; apply/keepingP => k.
by case: tpermP => [->|->|].
Qed.


End Swaps.

Lemma ordered_stored (row : eqType) (cell : string -> row -> Z) (n : nat)
    (t : n.-tuple row) (o : ordering) :
  ordered cell t o 1%g = sorted (before o.2) [seq cell o.1 r | r <- t].
Proof.
rewrite ordered_keys_delivery -[in RHS](map_tnth_enum t) -map_comp.
by congr (sorted _ _); apply: eq_map => i; rewrite perm1.
Qed.

Section MoreExamples.

Let anna : passenger := (1%N, 29%Z, 211%Z, 1%Z).
Let boris : passenger := (2%N, 2%Z, 151%Z, 1%Z).
Let carl : passenger := (3%N, 30%Z, 151%Z, 0%Z).

Let first : 'I_2 := ord0.
Let second : 'I_2 := ord_max.


Lemma sides_differ :
  test_side lcg48 (1 # 2) 0 first != test_side lcg48 (1 # 2) 0 second.
Proof. by vm_compute. Qed.

Lemma swap_collides_example :
  collides lcg48 (1 # 2) 0 (1%g, (tperm first second * 1)%g).
Proof. exact: (swap_collides 1%g sides_differ). Defined.

Lemma order_by_ties_collide_example :
  let t := [tuple boris; carl] in
  [&& ordered passenger_cell t by_fare 1%g,
      ordered passenger_cell t by_fare (tperm first second * 1)%g
    & collides lcg48 (1 # 2) 0 (1%g, (tperm first second * 1)%g)].
Proof.
apply: order_by_ties_collide sides_differ.
- by rewrite ordered_stored; vm_compute.
- by rewrite !perm1 /cell_at !(tnth_nth boris).
Defined.


End MoreExamples.

Section StockVerdicts.

Local Open Scope string_scope.

Lemma analysisE : analysis = [:: errors_call; warnings_call].
Proof. by vm_compute. Qed.

Lemma errors_callE :
  errors_call
  = Invocation 10 [:: "typecheck"; "W"; "C"; "R"] [:: "scipy.special"]
      [:: python_files].
Proof. by vm_compute. Qed.

Lemma warnings_callE :
  warnings_call
  = Invocation 9 [:: "typecheck"; "E"; "C"; "R"] [::] [:: python_files].
Proof. by vm_compute. Qed.

(** The stock score against a whole threshold [T] from 1 to 10, for a
    module with statements and no fatal message: the score is under [T]
    exactly when ten times the weight of the messages exceeds [10 - T]
    times the number of statements. *)
Lemma stock_under (T : nat) (st : stats) :
  0 < statement st -> fatal st = 0 -> 0 < T <= 10 ->
  Qlt_bool (stock_evaluation st) (inject_Z (Z.of_nat T))
  = ((10 - T) * statement st < 10 * weight st).
Proof.
case: st => n f e w r c /=; rewrite /stock_evaluation /weight /=.
case: n => // k _ -> /andP [/ltP T0 /leP T10] /=.
set W := Z.of_nat _.
have hW : (W = Z.of_nat (5 * e + w + r + c))%Z by [].
have := Zpos_P_of_succ_nat k; move: (Pos.of_succ_nat k) => p hp.
have hlt : ((10 - T) * k.+1 < 10 * (5 * e + w + r + c))
          <-> ((10 - Z.of_nat T) * Z.pos p < 10 * W)%Z.
  rewrite hp hW; split=> [/ltP|] h; [|apply/ltP];
    move: h; rewrite -!multE -!plusE -minusE; nia.
case hraw: (Qle_bool 0 _).
  apply/Qlt_boolP/idP => [h|/hlt h]; [apply/hlt|]; move: h;
  rewrite /Qle /Qlt /Qminus /Qplus /Qopp /Qdiv /Qmult /Qinv /inject_Z;
  cbn [Qnum Qden]; lia.
have {}hraw : (10 - inject_Z W / inject_Z (Z.pos p) * 10 < 0)%Q.
  by apply: Qnot_le_lt => /Qle_bool_iff; rewrite hraw.
have h0 : Qlt_bool 0 (inject_Z (Z.of_nat T)).
  by apply/Qlt_boolP; rewrite /Qlt /inject_Z; cbn [Qnum Qden]; lia.
rewrite h0; apply/esym/hlt; move: hraw.
by rewrite /Qle /Qlt /Qminus /Qplus /Qopp /Qdiv /Qmult /Qinv /inject_Z;
   cbn [Qnum Qden]; lia.
Qed.

Lemma stock_fatal (T : nat) (st : stats) :
  0 < fatal st -> 0 < T ->
  Qlt_bool (stock_evaluation st) (inject_Z (Z.of_nat T)).
Proof.
rewrite /stock_evaluation => -> /ltP T0; apply/Qlt_boolP.
by rewrite /Qlt /inject_Z; cbn [Qnum Qden]; lia.
Qed.

(** X7: under pylint's stock scoring the first call passes exactly when it
    reports no fatal and no error message: with W, C and R disabled nothing
    else weighs on its score, and any weight puts the score under 10. *)
Theorem errors_call_verdict (n : nat) (found : seq message) :
  0 < n ->
  fails stock_evaluation errors_call n found
  = has (fun m => is_category Fatal m || is_category Error m)
        (reported errors_call found).
Proof.
move=> n0; rewrite /fails /score /threshold errors_callE /=.
set i := Invocation _ _ _ _; set rep := reported i found.
rewrite (has_predU (is_category Fatal) (is_category Error)) !has_count.
have [f0|f0] := posnP (count (is_category Fatal) rep).
  rewrite (@stock_under 10 (tally n rep) n0 f0 isT) /weight /=.
  rewrite (@reported_category i Warning) // (@reported_category i Refactor) //.
  by rewrite (@reported_category i Convention) // !addn0 mul0n !muln_gt0.
exact: (@stock_fatal 10).
Qed.

(** X8: under the stock scoring the second call passes exactly when it reports
    no fatal message and at most one warning per ten statements. *)
Theorem warnings_call_verdict (n : nat) (found : seq message) :
  0 < n ->
  fails stock_evaluation warnings_call n found
  = has (is_category Fatal) (reported warnings_call found)
    || (n < 10 * count (is_category Warning) (reported warnings_call found)).
Proof.
move=> n0; rewrite /fails /score /threshold warnings_callE /=.
set i := Invocation _ _ _ _; set rep := reported i found.
rewrite has_count.
have [f0|f0] := posnP (count (is_category Fatal) rep).
  rewrite (@stock_under 9 (tally n rep) n0 f0 isT) /weight /=.
  rewrite (@reported_category i Error) // (@reported_category i Refactor) //.
  by rewrite (@reported_category i Convention) // muln0 add0n !addn0 mul1n.
exact: (@stock_fatal 9).
Qed.

End StockVerdicts.

Section Silenced.

Local Open Scope string_scope.

Variable evaluation : stats -> Q.

(** X9: a finding of the typecheck checker, or of the convention or refactor
    category, never changes the outcome of the analysis step: both calls
    disable it, whatever the scoring expression. *)
Theorem silenced_findings_never_fail (n : nat) (found more : seq message)
    (m : message) :
  [\/ msg_checker m = "typecheck", msg_category m = Convention
     | msg_category m = Refactor] ->
  step_fails evaluation n (found ++ m :: more)
  = step_fails evaluation n (found ++ more).
Proof.
move=> hm.
have h i : disabled i m ->
    fails evaluation i n (found ++ m :: more)
    = fails evaluation i n (found ++ more).
  by move=> d; rewrite /fails /score !reported_cat reported_disabled.
have has2 (p : pred invocation) a b : has p [:: a; b] = p a || p b.
  by rewrite /= orbF.
have d1 : disabled errors_call m.
  rewrite /disabled errors_callE /=.
  by case: hm => ->; rewrite ?inE ?eqxx ?orbT.
have d2 : disabled warnings_call m.
  rewrite /disabled warnings_callE /=.
  by case: hm => ->; rewrite ?inE ?eqxx ?orbT.
by rewrite /step_fails analysisE !has2 (h _ d1) (h _ d2).
Qed.

End Silenced.

Section VerdictExamples.

Local Open Scope string_scope.

Let unused : message := Message Warning "variables" "unused-variable".
Let undefined : message := Message Error "variables" "undefined-variable".
Let naming : message := Message Convention "basic" "invalid-name".

(** Ten statements, one warning and one error. *)
Lemma errors_call_verdict_example :
  fails stock_evaluation errors_call 10 [:: unused; undefined]
  = has (fun m => is_category Fatal m || is_category Error m)
        (reported errors_call [:: unused; undefined]).
Proof. exact: (@errors_call_verdict 10 [:: unused; undefined] isT). Defined.

Lemma warnings_call_verdict_example :
  fails stock_evaluation warnings_call 10 [:: unused; undefined]
  = has (is_category Fatal) (reported warnings_call [:: unused; undefined])
    || (10 < 10 * count (is_category Warning)
                    (reported warnings_call [:: unused; undefined])).
Proof. exact: (@warnings_call_verdict 10 [:: unused; undefined] isT). Defined.

Lemma silenced_findings_never_fail_example :
  step_fails stock_evaluation 10 ([:: unused] ++ naming :: [:: undefined])%SEQ
  = step_fails stock_evaluation 10 ([:: unused] ++ [:: undefined])%SEQ.
Proof.
exact: (@silenced_findings_never_fail stock_evaluation 10 [:: unused]
          [:: undefined] naming (Or32 _ _ erefl)).
Defined.

Let anna : passenger := (1%N, 29%Z, 211%Z, 1%Z).
Let boris : passenger := (2%N, 2%Z, 151%Z, 1%Z).

Lemma order_by_unique_partitions_example :
  partitions [:: anna; boris]
    (train_test_split lcg48 (1 # 2) 0 [:: boris; anna] [:: boris; anna]).1
    (train_test_split lcg48 (1 # 2) 0 [:: boris; anna] [:: boris; anna]).2.
Proof.
apply: (@order_by_unique_partitions lcg48 _ passenger_cell _ by_fare (1 # 2) 0).
  by vm_compute.
by exists [:: boris; anna], [:: boris; anna]; split; vm_compute.
Defined.

End VerdictExamples.

Section Commands.

Local Open Scope string_scope.

(** X10: every run of the job executes the same command lines, those of the
    file in the order of the file: the matrix changes the set-up step only.
    Among them [pip install pylint] and [pip install .] come before the
    first pylint call, and the two pylint calls are the last two lines. *)
Theorem runs_install_before_analysis :
  let lines := flatten [seq step_run s | s <- steps build] in
  let call := fun l => isSome (parse l) in
  [/\ [seq command_lines r | r <- workflow_runs pylint_workflow]
      = nseq 3 lines,
      find (installs "pylint") lines < find call lines,
      find (installs ".") lines < find call lines
    & [seq call l | l <- lines] = (nseq 6 false ++ nseq 2 true)%SEQ].
Proof. by split; vm_compute. Qed.

End Commands.
